(** * Relay (src/main.rs): a one-to-many TCP relay with a framed,
    checksummed wire protocol.

    Shallow embedding of [verify_checksum], of the frame-decoding drain loop
    and broadcast pass of [handle_source], and of the driver loop of [main].
    Bytes ([u8]) are modelled as [Z] values; [u16]/[u32] arithmetic is
    written out with its masks. *)

From Stdlib Require Import ZArith List Bool Lia.
Import ListNotations.
Open Scope Z_scope.

(* ------------------------------------------------------------------ *)
(** ** verify_checksum *)

(** [u16::from_be_bytes([hi, lo])]. *)
Definition be16 (hi lo : Z) : Z := Z.lor (Z.shiftl hi 8) lo.

(** The inner [while sum > 0xFFFF { sum = (sum & 0xFFFF) + (sum >> 16); }].
    Two rounds bring any [u32] below [0x10000]; the fuel is a bound,
    not a behaviour. *)
Fixpoint fold_carry (fuel : nat) (sum : Z) : Z :=
  match fuel with
  | O => sum
  | S f =>
      if sum >? 0xFFFF
      then fold_carry f (Z.land sum 0xFFFF + Z.shiftr sum 16)
      else sum
  end.

(** The word read at [message_index]: the fixed [0xCCCC] at index 4,
    otherwise [(high_byte << 8) | low_byte] in [u16], with the low byte 0
    past the end. *)
Definition cks_word (message : list Z) (message_index : nat) : Z :=
  if Nat.eqb message_index 4 then 0xCCCC
  else
    let high_byte := nth message_index message 0 in
    let low_byte :=
      if Nat.ltb (message_index + 1) (length message)
      then nth (message_index + 1) message 0 else 0 in
    Z.lor (Z.land (Z.shiftl high_byte 8) 0xFFFF) low_byte.

(** The outer [while message_index < message.len()] loop; [sum] is a [u32]
    ([sum += word as u32]). The loop runs at most [message.len()] times. *)
Fixpoint cks_loop (fuel : nat) (message : list Z) (message_index : nat)
    (sum : Z) : Z :=
  match fuel with
  | O => sum
  | S f =>
      if Nat.ltb message_index (length message) then
        let word := cks_word message message_index in
        let sum1 := (sum + word) mod 2 ^ 32 in
        cks_loop f message (message_index + 2) (fold_carry 2 sum1)
      else sum
  end.

Definition verify_checksum (message : list Z) (checksum : Z) : bool :=
  let sum := cks_loop (length message) message 0 0 in
  (* [!(sum as u16)] *)
  let computed := Z.lxor (Z.land sum 0xFFFF) 0xFFFF in
  computed =? checksum.

(** Checksum as the spec (section 4.1) describes it: 16-bit big-endian
    words from offset 0, the word at offset 4 replaced by [0xCCCC], an odd
    final byte zero-padded, an end-around-carry sum, then complemented. *)
Module SpecChecksum.

Fixpoint words (i : nat) (m : list Z) : list Z :=
  match m with
  | [] => []
  | [h] => [if Nat.eqb i 4 then 0xCCCC else h * 256]
  | h :: l :: t =>
      (if Nat.eqb i 4 then 0xCCCC else h * 256 + l) :: words (i + 2) t
  end.

(** Plain big-endian words, no substitution (what a sender sums over a
    frame whose checksum field holds the placeholder). *)
Fixpoint plain_words (m : list Z) : list Z :=
  match m with
  | [] => []
  | [h] => [h * 256]
  | h :: l :: t => (h * 256 + l) :: plain_words t
  end.

(** One's-complement addition of two 16-bit values. *)
Definition oc_add (a b : Z) : Z :=
  let s := a + b in if s >? 0xFFFF then s - 0xFFFF else s.

Definition oc_sum (ws : list Z) : Z := fold_left oc_add ws 0.

Definition complement16 (x : Z) : Z := 0xFFFF - x.

Definition verify (m : list Z) (stated : Z) : bool :=
  complement16 (oc_sum (words 0 m)) =? stated.

(** The sender: checksum of a frame whose bytes 4 and 5 are [0xCC]. *)
Definition sender_checksum (placeholder_frame : list Z) : Z :=
  complement16 (oc_sum (plain_words placeholder_frame)).

End SpecChecksum.

Definition is_byte (b : Z) : Prop := 0 <= b < 256.

(** A frame with the given header bytes (magic [0xCC] first) and payload. *)
Definition mk_frame (options len_hi len_lo ck_hi ck_lo r1 r2 : Z)
    (payload : list Z) : list Z :=
  [0xCC; options; len_hi; len_lo; ck_hi; ck_lo; r1; r2] ++ payload.

(* ------------------------------------------------------------------ *)
(** ** The frame decoder of [handle_source] *)

(** [buffer.iter().position(|&b| b == 0xCC)] *)
Fixpoint position_magic (buffer : list Z) : option nat :=
  match buffer with
  | [] => None
  | b :: t =>
      if b =? 0xCC then Some O
      else match position_magic t with
           | Some p => Some (S p)
           | None => None
           end
  end.

(** Header fields, read from a buffer whose byte 0 is the magic byte. *)
Definition hdr_length (buffer : list Z) : nat :=
  Z.to_nat (be16 (nth 2 buffer 0) (nth 3 buffer 0)).

Definition hdr_checksum (buffer : list Z) : Z :=
  be16 (nth 4 buffer 0) (nth 5 buffer 0).

Definition sensitive_bit (buffer : list Z) : Z :=
  Z.land (Z.shiftr (nth 1 buffer 0) 6) 1.

(** How one iteration of the inner [loop] ends. *)
Inductive step_result :=
  | Stop (buffer : list Z)                     (** [break], nothing extracted *)
  | Drop (message : list Z) (buffer : list Z)  (** checksum invalid: [eprintln!]
                                                   then [break] *)
  | Forward (message : list Z) (buffer : list Z). (** broadcast, next iteration *)

(** The part of one iteration of the inner [loop] of [handle_source] that
    follows the resynchronisation: [buffer] starts at the magic byte. *)
Definition decode_at (buffer : list Z) : step_result :=
  if Nat.ltb (length buffer) 8 then Stop buffer
  else
    let len := hdr_length buffer in
    let sensitive := sensitive_bit buffer in
    let checksum := hdr_checksum buffer in
    if Nat.ltb (length buffer) (8 + len) then Stop buffer
    else
      let message := firstn (8 + len) buffer in
      let buffer := skipn (8 + len) buffer in
      if (sensitive =? 1) && negb (verify_checksum message checksum)
      then Drop message buffer
      else Forward message buffer.

(** One iteration of the inner [loop] of [handle_source] on [buffer]. *)
Definition decode_step (buffer : list Z) : step_result :=
  match position_magic buffer with
  | None => Stop []                                          (* buffer.clear() *)
  | Some pos =>
      decode_at (if Nat.ltb 0 pos then skipn pos buffer else buffer)
  end.

(** A complete, well-formed frame: magic byte first, [8 + length] bytes,
    and a valid checksum when the sensitive bit is set. *)
Definition frame_ok (f : list Z) : bool :=
  match f with
  | [] => false
  | b :: _ =>
      (b =? 0xCC) && Nat.eqb (length f) (8 + hdr_length f)
      && (negb (sensitive_bit f =? 1) || verify_checksum f (hdr_checksum f))
  end.

(** Destination connections are identified by a handle ([nat]). A write
    either succeeds or fails; which one is decided by the environment. The
    observable events of a session are the writes and the diagnostics. *)
Inductive event :=
  | Write (dest : nat) (message : list Z) (ok : bool)
  | Dropped (message : list Z).

Record relay := mk_relay { dests : list nat; trace : list event }.

(** [Vec::remove(i)] (panics out of range; the indices used are in range). *)
Definition vec_remove {A} (i : nat) (l : list A) : list A :=
  firstn i l ++ skipn (S i) l.

Section Broadcast.

(** Outcome of [dest.write_all(&message)], given the events so far. *)
Variable write_ok : list event -> nat -> list Z -> bool.

(** The [for (i, dest) in list.iter_mut().enumerate()] loop: writes in
    registry order, collecting the indexes of failed destinations. *)
Fixpoint write_pass (message : list Z) (i : nat) (lst : list nat)
    (tr : list event) : list event * list nat :=
  match lst with
  | [] => (tr, [])
  | d :: rest =>
      let ok := write_ok tr d message in
      let '(tr', to_remove) := write_pass message (S i) rest (tr ++ [Write d message ok]) in
      (tr', if ok then to_remove else i :: to_remove)
  end.

(** The broadcast of one message, failed destinations removed in reverse
    index order. *)
Definition broadcast (message : list Z) (st : relay) : relay :=
  let '(tr, to_remove) := write_pass message 0 (dests st) (trace st) in
  mk_relay (fold_left (fun l i => vec_remove i l) (rev to_remove) (dests st)) tr.

(** The inner [loop] of [handle_source]; each [Forward] shortens the buffer,
    so [length buffer + 1] rounds always suffice. *)
Fixpoint drain_fuel (fuel : nat) (buffer : list Z) (st : relay) : list Z * relay :=
  match fuel with
  | O => (buffer, st)
  | S f =>
      match decode_step buffer with
      | Stop b => (b, st)
      | Drop m b => (b, mk_relay (dests st) (trace st ++ [Dropped m]))
      | Forward m b => drain_fuel f b (broadcast m st)
      end
  end.

Definition drain (buffer : list Z) (st : relay) : list Z * relay :=
  drain_fuel (S (length buffer)) buffer st.

(** Result of one [source_stream.read]: some bytes (none = disconnect) or an
    I/O error. *)
Inductive read_result := RdOk (chunk : list Z) | RdErr.

(** How [handle_source] ends: [Ok(())], [Err], or still blocked in [read]
    when the scripted reads run out. *)
Inductive session_outcome := SessOk | SessErr | SessBlocked.

Fixpoint handle_loop (reads : list read_result) (buffer : list Z) (st : relay)
    : session_outcome * relay :=
  match reads with
  | [] => (SessBlocked, st)
  | RdErr :: _ => (SessErr, st)                     (* read(..)? *)
  | RdOk chunk :: rest =>
      if Nat.eqb (length chunk) 0 then (SessOk, st)  (* bytes_read == 0 *)
      else
        let '(buffer', st') := drain (buffer ++ chunk) st in
        handle_loop rest buffer' st'
  end.

Definition handle_source (reads : list read_result) (st : relay)
    : session_outcome * relay :=
  handle_loop reads [] st.

(** [source_listener.accept()]: a connection with its reads, or an error. *)
Inductive accept_result := AccOk (reads : list read_result) | AccErr.

Inductive main_outcome := MainErr | MainRunning.

(** The [loop] of [main]: [accept()?] then [handle_source(..)?]. *)
Fixpoint main_loop (sources : list accept_result) (st : relay)
    : main_outcome * relay * nat :=
  (* the [nat] counts the source sessions served *)
  match sources with
  | [] => (MainRunning, st, O)
  | AccErr :: _ => (MainErr, st, O)
  | AccOk reads :: rest =>
      match handle_source reads st with
      | (SessOk, st') =>
          let '(o, st'', n) := main_loop rest st' in (o, st'', S n)
      | (SessErr, st') => (MainErr, st', 1%nat)
      | (SessBlocked, st') => (MainRunning, st', 1%nat)
      end
  end.

End Broadcast.

(** A byte other than the magic byte. *)
Definition not_magic (b : Z) : Prop := b <> 0xCC.

(** Example frames: [ex_plain] (sensitive bit clear, empty payload) and
    [ex_sensitive], the spec's scenario frame [CC 40 00 03 F0 32 00 00
    AA BB CC] with its correct checksum [0xF032]. *)
Definition ex_plain : list Z := mk_frame 0 0 0 0 0 0 0 [].
Definition ex_sensitive : list Z := mk_frame 0x40 0 3 0xF0 0x32 0 0 [0xAA; 0xBB; 0xCC].
Definition ex_bad : list Z := mk_frame 0x40 0 0 0 0 0 0 [].
Definition all_ok : list event -> nat -> list Z -> bool := fun _ _ _ => true.


(** [Vec::remove(i)] with its bounds check made visible ([None] = panic). *)
Definition vec_remove_checked {A} (i : nat) (l : list A) : option (list A) :=
  if Nat.ltb i (length l) then Some (vec_remove i l) else None.

(** The removal loop [for i in to_remove.into_iter().rev() { list.remove(i); }]
    with panics propagated. *)
Definition remove_all_checked {A} (to_remove : list nat) (l : list A)
    : option (list A) :=
  fold_left (fun acc i => match acc with
                          | Some l0 => vec_remove_checked i l0
                          | None => None
                          end) (rev to_remove) (Some l).

(** Broadcasting a sequence of frames, one pass each. *)
Definition broadcast_all (w : list event -> nat -> list Z -> bool)
    (fs : list (list Z)) (st : relay) : relay :=
  fold_left (fun st0 f => broadcast w f st0) fs st.

(** An event the relay may record: a write carries a complete, valid frame. *)
Definition event_ok (e : event) : Prop :=
  match e with
  | Write _ m _ => frame_ok m = true
  | Dropped _ => True
  end.

(** The buffer a decoding step leaves. *)
Definition step_buffer (r : step_result) : list Z :=
  match r with Stop b => b | Drop _ b => b | Forward _ b => b end.

(** The trace only grows, and every event added is valid. *)
Definition appends_valid (st st' : relay) : Prop :=
  exists evs, trace st' = trace st ++ evs /\ Forall event_ok evs.

(** The shape of a buffer left by the drain loop: empty, or a magic byte
    starting an incomplete frame; or the pass ended with a drop. *)
Definition leftover_shape (b : list Z) : Prop :=
  b = [] \/ (exists t, b = 0xCC :: t) /\ (length b < 8 + hdr_length b)%nat.

Definition ends_with_drop (st : relay) : Prop :=
  exists pre m, trace st = pre ++ [Dropped m].

(** The trace grew and its last event is a drop. *)
Definition drop_since (st st' : relay) : Prop :=
  exists evs m, trace st' = trace st ++ evs ++ [Dropped m].

(** [p] is empty or a proper nonempty prefix of the first frame of [fs]. *)
Definition prefix_ok (p : list Z) (fs : list (list Z)) : Prop :=
  p = [] \/ exists f post k, fs = f :: post /\ p = firstn k f /\ (0 < k < length f)%nat.

(* ------------------------------------------------------------------ *)
(** ** Checksum lemmas *)

Lemma fold_carry_oc (a w : Z) :
  0 <= a <= 0xFFFF -> 0 <= w <= 0xFFFF ->
  fold_carry 2 ((a + w) mod 2 ^ 32) = SpecChecksum.oc_add a w.
Proof.
  intros Ha Hw. unfold SpecChecksum.oc_add.
  rewrite Z.mod_small by lia.
  simpl fold_carry.
  destruct (Z.gtb_spec (a + w) 0xFFFF) as [Hgt|Hle].
  - rewrite Z.land_ones with (n := 16) by lia.
    rewrite Z.shiftr_div_pow2 by lia.
    change (2 ^ 16) with 65536.
    assert (E : (a + w) mod 65536 = a + w - 65536 /\ (a + w) / 65536 = 1)
      by (Z.to_euclidean_division_equations; split; nia).
    destruct E as [-> ->].
    destruct (Z.gtb_spec (a + w - 65536 + 1) 0xFFFF); lia.
  - reflexivity.
Qed.

Lemma land_shift8_byte (h l : Z) :
  is_byte l -> Z.land (h * 256) l = 0.
Proof.
  unfold is_byte; intros Hl.
  apply Z.bits_inj'; intros n Hn. rewrite Z.land_spec, Z.bits_0.
  destruct (Z.lt_ge_cases n 8).
  - change 256 with (2 ^ 8). rewrite <- Z.shiftl_mul_pow2 by lia.
    rewrite Z.shiftl_spec_low by lia. reflexivity.
  - rewrite (Z.bits_above_log2 l n); [apply andb_false_r|lia|].
    destruct (Z.eq_dec l 0) as [->|]; [simpl; lia|].
    apply Z.log2_lt_pow2; [lia|].
    apply Z.lt_le_trans with (2 ^ 8); [change (2 ^ 8) with 256; lia|].
    apply Z.pow_le_mono_r; lia.
Qed.

Lemma be_word_byte (h l : Z) :
  is_byte h -> is_byte l ->
  Z.lor (Z.land (Z.shiftl h 8) 0xFFFF) l = h * 256 + l.
Proof.
  intros Hh Hl. pose proof Hh as Hh'. unfold is_byte in Hh'.
  rewrite Z.shiftl_mul_pow2 by lia. change (2 ^ 8) with 256.
  rewrite Z.land_ones with (n := 16) by lia.
  rewrite Z.mod_small by (change (2 ^ 16) with 65536; lia).
  rewrite <- Z.add_lor_land, land_shift8_byte by exact Hl. lia.
Qed.

Lemma oc_add_range (a b : Z) :
  0 <= a <= 0xFFFF -> 0 <= b <= 0xFFFF -> 0 <= SpecChecksum.oc_add a b <= 0xFFFF.
Proof.
  unfold SpecChecksum.oc_add; intros.
  destruct (Z.gtb_spec (a + b) 0xFFFF); lia.
Qed.

Lemma cks_loop_done (f : nat) (m : list Z) (i : nat) (s : Z) :
  (length m <= i)%nat -> cks_loop f m i s = s.
Proof.
  intros H. destruct f; simpl; [reflexivity|].
  destruct (Nat.ltb_spec i (length m)); [lia|reflexivity].
Qed.

Lemma words_range (i : nat) (m : list Z) :
  Forall is_byte m -> Forall (fun w => 0 <= w <= 0xFFFF) (SpecChecksum.words i m).
Proof.
  revert i. induction m as [m IH] using (induction_ltof1 _ (@length Z)).
  unfold ltof in IH. intros i Hm.
  destruct m as [|h [|l t]]; simpl; [constructor| |].
  - inversion Hm as [|? ? Hh]; subst. unfold is_byte in Hh.
    constructor; [destruct (Nat.eqb i 4); lia|constructor].
  - inversion Hm as [|? ? Hh Ht]; subst. inversion Ht as [|? ? Hl Ht']; subst.
    unfold is_byte in Hh, Hl.
    constructor; [destruct (Nat.eqb i 4); lia|].
    apply IH; [simpl; lia|exact Ht'].
Qed.

(** The [while] loop of [verify_checksum] computes the one's-complement sum
    of the words from [message_index] on. *)
Lemma cks_loop_spec (fuel : nat) (p rest : list Z) (sum : Z) :
  Forall is_byte rest -> 0 <= sum <= 0xFFFF -> (length rest <= fuel)%nat ->
  cks_loop fuel (p ++ rest) (length p) sum
  = fold_left SpecChecksum.oc_add (SpecChecksum.words (length p) rest) sum.
Proof.
  revert p rest sum.
  induction fuel as [|f IH]; intros p rest sum Hb Hs Hf.
  - destruct rest; [reflexivity|simpl in Hf; lia].
  - destruct rest as [|h [|l t]].
    + rewrite app_nil_r. apply cks_loop_done. lia.
    + inversion Hb as [|? ? Hh]; subst.
      simpl cks_loop. rewrite length_app. simpl length.
      destruct (Nat.ltb_spec (length p) (length p + 1)); [|lia].
      rewrite cks_loop_done by (rewrite length_app; simpl; lia).
      unfold cks_word. simpl SpecChecksum.words. simpl fold_left.
      rewrite length_app; simpl length.
      destruct (Nat.eqb (length p) 4).
      * apply fold_carry_oc; lia.
      * rewrite app_nth2, Nat.sub_diag by lia. simpl nth.
        destruct (Nat.ltb_spec (length p + 1) (length p + 1)); [lia|].
        rewrite be_word_byte by (auto; unfold is_byte; lia).
        unfold is_byte in Hh.
        rewrite Z.add_0_r. apply fold_carry_oc; lia.
    + inversion Hb as [|? ? Hh Ht]; subst. inversion Ht as [|? ? Hl Ht']; subst.
      cbn [cks_loop]. rewrite length_app. simpl length.
      destruct (Nat.ltb_spec (length p) (length p + S (S (length t)))); [|lia].
      simpl SpecChecksum.words. simpl fold_left.
      assert (Hw : 0 <= cks_word (p ++ h :: l :: t) (length p) <= 0xFFFF
                /\ cks_word (p ++ h :: l :: t) (length p)
                   = if Nat.eqb (length p) 4 then 0xCCCC else h * 256 + l).
      { unfold cks_word. unfold is_byte in Hh, Hl.
        destruct (Nat.eqb (length p) 4); [lia|].
        rewrite length_app; simpl length.
        rewrite app_nth2, Nat.sub_diag by lia. simpl nth.
        destruct (Nat.ltb_spec (length p + 1) (length p + S (S (length t)))); [|lia].
        rewrite app_nth2 by lia.
        replace (length p + 1 - length p)%nat with 1%nat by lia. simpl nth.
        rewrite be_word_byte by (unfold is_byte; lia). lia. }
      destruct Hw as [Hwr Hweq].
      cbv zeta. rewrite Hweq in Hwr |- *. rewrite fold_carry_oc by lia.
      replace (p ++ h :: l :: t) with ((p ++ [h; l]) ++ t)
        by (rewrite <- app_assoc; reflexivity).
      replace (length p + 2)%nat with (length (p ++ [h; l]))
        by (rewrite length_app; simpl; lia).
      apply IH; [exact Ht'| |simpl in Hf; lia].
      apply oc_add_range; lia.
Qed.

Lemma testbit_small (x : Z) (k n : Z) :
  0 <= x < 2 ^ k -> 0 <= k <= n -> Z.testbit x n = false.
Proof.
  intros Hx Hk.
  destruct (Z.eq_dec x 0) as [->|]; [apply Z.bits_0|].
  apply Z.bits_above_log2; [lia|].
  apply Z.lt_le_trans with k; [apply Z.log2_lt_pow2; lia|lia].
Qed.

Lemma lxor_ffff (s : Z) :
  0 <= s <= 0xFFFF -> Z.lxor (Z.land s 0xFFFF) 0xFFFF = 0xFFFF - s.
Proof.
  intros Hs.
  rewrite Z.land_ones with (n := 16) by lia.
  rewrite Z.mod_small by (change (2 ^ 16) with 65536; lia).
  rewrite <- Z.sub_lor_land.
  assert (E1 : Z.lor s 0xFFFF = 0xFFFF).
  { apply Z.bits_inj'; intros n Hn. rewrite Z.lor_spec.
    change 0xFFFF with (Z.ones 16).
    destruct (Z.lt_ge_cases n 16).
    - rewrite Z.testbit_ones_nonneg by lia.
      destruct (Z.ltb_spec n 16); [apply orb_true_r|lia].
    - rewrite Z.testbit_ones_nonneg by lia.
      rewrite (testbit_small s 16 n) by (change (2 ^ 16) with 65536; lia).
      destruct (Z.ltb_spec n 16); [lia|]. reflexivity. }
  assert (E2 : Z.land s 0xFFFF = s).
  { rewrite Z.land_ones with (n := 16) by lia. apply Z.mod_small.
    change (2 ^ 16) with 65536; lia. }
  rewrite E1, E2. reflexivity.
Qed.

(** [verify_checksum] agrees with the spec's checksum on byte strings. *)
Lemma verify_checksum_spec (message : list Z) (checksum : Z) :
  Forall is_byte message ->
  verify_checksum message checksum = SpecChecksum.verify message checksum.
Proof.
  intros Hb. unfold verify_checksum, SpecChecksum.verify, SpecChecksum.oc_sum.
  pose proof (cks_loop_spec (length message) [] message 0 Hb) as E.
  simpl in E. rewrite E by lia.
  assert (R : 0 <= fold_left SpecChecksum.oc_add (SpecChecksum.words 0 message) 0 <= 0xFFFF).
  { pose proof (words_range 0 message Hb) as Hw.
    assert (G : forall ws a, Forall (fun w => 0 <= w <= 0xFFFF) ws -> 0 <= a <= 0xFFFF ->
                 0 <= fold_left SpecChecksum.oc_add ws a <= 0xFFFF).
    { induction ws as [|w ws IHws]; intros a Hws Ha; simpl; [exact Ha|].
      inversion Hws; subst. apply IHws; [assumption|]. apply oc_add_range; assumption. }
    apply G; [exact Hw|lia]. }
  rewrite lxor_ffff by exact R. reflexivity.
Qed.

Lemma words_plain_after (i : nat) (m : list Z) :
  (4 < i)%nat -> SpecChecksum.words i m = SpecChecksum.plain_words m.
Proof.
  revert i. induction m as [m IH] using (induction_ltof1 _ (@length Z)).
  unfold ltof in IH. intros i Hi.
  destruct m as [|h [|l t]]; simpl; [reflexivity| |].
  - destruct (Nat.eqb_spec i 4); [lia|reflexivity].
  - destruct (Nat.eqb_spec i 4); [lia|].
    f_equal. apply IH; [simpl; lia|lia].
Qed.

Lemma fold_oc_range (ws : list Z) (a : Z) :
  Forall (fun w => 0 <= w <= 0xFFFF) ws -> 0 <= a <= 0xFFFF ->
  0 <= fold_left SpecChecksum.oc_add ws a <= 0xFFFF.
Proof.
  revert a. induction ws as [|w ws IHws]; intros a Hws Ha; simpl; [exact Ha|].
  inversion Hws; subst. apply IHws; [assumption|]. apply oc_add_range; assumption.
Qed.

(* ------------------------------------------------------------------ *)
(** ** Decoder lemmas *)

Lemma position_magic_noise (noise rest : list Z) :
  Forall not_magic noise ->
  position_magic (noise ++ rest)
  = option_map (fun p => length noise + p)%nat (position_magic rest).
Proof.
  induction 1 as [|b t Hb _ IH]; simpl.
  - destruct (position_magic rest); reflexivity.
  - destruct (Z.eqb_spec b 0xCC); [contradiction|].
    rewrite IH. destruct (position_magic rest); reflexivity.
Qed.

Lemma position_magic_head (t : list Z) : position_magic (0xCC :: t) = Some O.
Proof. reflexivity. Qed.

Lemma resync_skipn (pos : nat) (b : list Z) :
  (if Nat.ltb 0 pos then skipn pos b else b) = skipn pos b.
Proof. destruct pos; reflexivity. Qed.

Lemma decode_step_skipn (buffer : list Z) :
  decode_step buffer
  = match position_magic buffer with
    | None => Stop []
    | Some pos => decode_at (skipn pos buffer)
    end.
Proof.
  unfold decode_step. destruct (position_magic buffer); [|reflexivity].
  rewrite resync_skipn. reflexivity.
Qed.

Lemma decode_step_noise (noise rest : list Z) :
  Forall not_magic noise -> decode_step (noise ++ rest) = decode_step rest.
Proof.
  intros H. rewrite !decode_step_skipn, position_magic_noise by exact H.
  destruct (position_magic rest) as [p|]; simpl; [|reflexivity].
  rewrite skipn_app, skipn_all2 by lia. simpl.
  replace (length noise + p - length noise)%nat with p by lia. reflexivity.
Qed.

Lemma decode_step_magic (t : list Z) :
  decode_step (0xCC :: t) = decode_at (0xCC :: t).
Proof. reflexivity. Qed.

Lemma decode_at_partial (buffer : list Z) :
  (length buffer < 8 + hdr_length buffer)%nat -> decode_at buffer = Stop buffer.
Proof.
  intros H. unfold decode_at.
  destruct (Nat.ltb_spec (length buffer) 8); [reflexivity|].
  destruct (Nat.ltb_spec (length buffer) (8 + hdr_length buffer)); [reflexivity|lia].
Qed.

Lemma header_app (f rest : list Z) :
  (8 <= length f)%nat ->
  hdr_length (f ++ rest) = hdr_length f
  /\ hdr_checksum (f ++ rest) = hdr_checksum f
  /\ sensitive_bit (f ++ rest) = sensitive_bit f.
Proof.
  intros H. unfold hdr_length, hdr_checksum, sensitive_bit.
  rewrite !app_nth1 by lia. auto.
Qed.

Lemma decode_at_frame (f rest : list Z) :
  length f = (8 + hdr_length f)%nat ->
  decode_at (f ++ rest)
  = if (sensitive_bit f =? 1) && negb (verify_checksum f (hdr_checksum f))
    then Drop f rest else Forward f rest.
Proof.
  intros Hl. destruct (header_app f rest) as (E1 & E2 & E3); [lia|].
  unfold decode_at. rewrite E1, E2, E3, length_app.
  destruct (Nat.ltb_spec (length f + length rest) 8); [lia|].
  destruct (Nat.ltb_spec (length f + length rest) (8 + hdr_length f)); [lia|].
  rewrite <- Hl, firstn_app, skipn_app, firstn_all, skipn_all, Nat.sub_diag.
  simpl. rewrite app_nil_r. reflexivity.
Qed.

Lemma decode_step_frame (f rest : list Z) :
  frame_ok f = true -> decode_step (f ++ rest) = Forward f rest.
Proof.
  destruct f as [|b t]; [discriminate|].
  unfold frame_ok. intros H.
  apply andb_prop in H as [H Hck]. apply andb_prop in H as [Hb Hl].
  apply Z.eqb_eq in Hb; subst b. apply Nat.eqb_eq in Hl.
  simpl app. rewrite decode_step_magic.
  change (0xCC :: t ++ rest) with ((0xCC :: t) ++ rest).
  rewrite decode_at_frame by exact Hl.
  destruct (sensitive_bit (0xCC :: t) =? 1); [|reflexivity].
  simpl in Hck. rewrite Hck. reflexivity.
Qed.

Lemma nth_firstn_lt (k i : nat) (l : list Z) (d : Z) :
  (i < k)%nat -> nth i (firstn k l) d = nth i l d.
Proof.
  revert k i. induction l as [|x l IH]; intros k i Hi.
  - destruct k; reflexivity.
  - destruct k; [lia|]. destruct i; simpl; [reflexivity|]. apply IH. lia.
Qed.

(** A nonempty proper prefix of a frame waits for more input. *)
Lemma decode_step_prefix (f : list Z) (k : nat) :
  frame_ok f = true -> (0 < k < length f)%nat ->
  decode_step (firstn k f) = Stop (firstn k f).
Proof.
  destruct f as [|b t]; [discriminate|].
  unfold frame_ok. intros H Hk.
  apply andb_prop in H as [H _]. apply andb_prop in H as [Hb Hl].
  apply Z.eqb_eq in Hb; subst b. apply Nat.eqb_eq in Hl.
  destruct k as [|k]; [lia|]. simpl firstn. rewrite decode_step_magic.
  change (0xCC :: firstn k t) with (firstn (S k) (0xCC :: t)).
  apply decode_at_partial.
  rewrite length_firstn.
  destruct (Nat.lt_ge_cases (S k) 8).
  - lia.
  - unfold hdr_length in *. rewrite !nth_firstn_lt by lia. lia.
Qed.

Lemma decode_step_forward_shorter (buffer m b : list Z) :
  decode_step buffer = Forward m b -> (length b < length buffer)%nat.
Proof.
  rewrite decode_step_skipn.
  destruct (position_magic buffer) as [pos|]; [|discriminate].
  unfold decode_at.
  set (b0 := skipn pos buffer).
  assert (Hb0 : (length b0 <= length buffer)%nat)
    by (unfold b0; rewrite length_skipn; lia).
  destruct (Nat.ltb_spec (length b0) 8); [discriminate|].
  destruct (Nat.ltb_spec (length b0) (8 + hdr_length b0)); [discriminate|].
  destruct (_ && _); intros E; [discriminate|injection E as _ <-].
  assert (HH : (length (skipn (8 + hdr_length b0) b0) < length buffer)%nat)
    by (rewrite length_skipn; lia).
  exact HH.
Qed.

(* ------------------------------------------------------------------ *)
(** ** Drain-loop and broadcast lemmas *)

Section DrainLemmas.

Variable w : list event -> nat -> list Z -> bool.

Lemma drain_fuel_irrel (n m : nat) (buffer : list Z) (st : relay) :
  (length buffer < n)%nat -> (length buffer < m)%nat ->
  drain_fuel w n buffer st = drain_fuel w m buffer st.
Proof.
  revert m buffer st. induction n as [|n IH]; intros m buffer st Hn Hm; [lia|].
  destruct m as [|m]; [lia|]. simpl.
  destruct (decode_step buffer) as [b|msg b|msg b] eqn:E; try reflexivity.
  apply decode_step_forward_shorter in E. apply IH; lia.
Qed.

Lemma drain_forward (buffer msg b : list Z) (st : relay) :
  decode_step buffer = Forward msg b ->
  drain w buffer st = drain w b (broadcast w msg st).
Proof.
  intros E. unfold drain at 1. simpl. rewrite E.
  apply decode_step_forward_shorter in E.
  apply drain_fuel_irrel; lia.
Qed.

Lemma drain_stop (buffer b : list Z) (st : relay) :
  decode_step buffer = Stop b -> drain w buffer st = (b, st).
Proof. intros E. unfold drain. simpl. rewrite E. reflexivity. Qed.

Lemma drain_drop (buffer msg b : list Z) (st : relay) :
  decode_step buffer = Drop msg b ->
  drain w buffer st = (b, mk_relay (dests st) (trace st ++ [Dropped msg])).
Proof. intros E. unfold drain. simpl. rewrite E. reflexivity. Qed.

Lemma drain_nil (st : relay) : drain w [] st = ([], st).
Proof. reflexivity. Qed.

Lemma drain_frame (f rest : list Z) (st : relay) :
  frame_ok f = true -> drain w (f ++ rest) st = drain w rest (broadcast w f st).
Proof. intros H. apply drain_forward, decode_step_frame, H. Qed.

Lemma drain_noise (noise rest : list Z) (st : relay) :
  Forall not_magic noise -> drain w (noise ++ rest) st = drain w rest st.
Proof.
  intros H. unfold drain at 1. simpl. rewrite decode_step_noise by exact H.
  destruct (decode_step rest) as [b|msg b|msg b] eqn:E.
  - symmetry. apply drain_stop, E.
  - symmetry. apply drain_drop, E.
  - rewrite (drain_forward rest msg b st E).
    apply decode_step_forward_shorter in E.
    apply drain_fuel_irrel; rewrite ?length_app; lia.
Qed.

Lemma vec_remove_mid (p : list nat) (d : nat) (l : list nat) :
  vec_remove (length p) (p ++ d :: l) = p ++ l.
Proof.
  unfold vec_remove. rewrite firstn_app, skipn_app, Nat.sub_diag, firstn_all.
  assert (skipn (S (length p)) p = []) as -> by (apply skipn_all2; lia).
  replace (S (length p) - length p)%nat with 1%nat by lia.
  simpl. rewrite app_nil_r. reflexivity.
Qed.

(** The write loop attempts every destination; the removal loop then
    deletes exactly the failed ones. *)
Lemma write_pass_spec (msg : list Z) (l p : list nat) (tr : list event) :
  exists oks : list bool,
    length oks = length l
    /\ fst (write_pass w msg (length p) l tr)
       = tr ++ map (fun '(d, ok) => Write d msg ok) (combine l oks)
    /\ fold_left (fun l0 i => vec_remove i l0)
         (rev (snd (write_pass w msg (length p) l tr))) (p ++ l)
       = p ++ map fst (filter snd (combine l oks)).
Proof.
  revert p tr. induction l as [|d l IH]; intros p tr.
  - exists []. simpl. rewrite !app_nil_r. auto.
  - set (ok := w tr d msg).
    destruct (IH (p ++ [d]) (tr ++ [Write d msg ok])) as (oks & Hlen & Htr & Hrm).
    exists (ok :: oks). simpl write_pass. fold ok.
    rewrite length_app in Htr, Hrm. simpl length in Htr, Hrm.
    rewrite Nat.add_1_r in Htr, Hrm.
    destruct (write_pass w msg (S (length p)) l (tr ++ [Write d msg ok]))
      as [tr' rm] eqn:E.
    simpl fst in *. simpl snd in *.
    split; [simpl; lia|]. split.
    + rewrite Htr, <- app_assoc. reflexivity.
    + rewrite <- app_assoc in Hrm. simpl app in Hrm.
      destruct ok; simpl.
      * rewrite Hrm, <- app_assoc. reflexivity.
      * rewrite fold_left_app, Hrm. simpl. rewrite <- app_assoc. apply vec_remove_mid.
Qed.

End DrainLemmas.

Lemma sensitive_bit_testbit (f : list Z) :
  (sensitive_bit f =? 1) = Z.testbit (nth 1 f 0) 6.
Proof.
  unfold sensitive_bit.
  rewrite Z.land_ones with (n := 1) by lia.
  change (2 ^ 1) with 2. rewrite Zmod_odd.
  rewrite <- Z.bit0_odd, Z.shiftr_spec, Z.add_0_l by lia.
  destruct (Z.testbit (nth 1 f 0) 6); reflexivity.
Qed.

Lemma byte_of_u16 (ck : Z) :
  0 <= ck <= 0xFFFF -> is_byte (Z.shiftr ck 8) /\ is_byte (Z.land ck 0xFF).
Proof.
  intros H. unfold is_byte.
  rewrite Z.shiftr_div_pow2 by lia.
  change 0xFF with (Z.ones 8). rewrite Z.land_ones by lia.
  change (2 ^ 8) with 256.
  split; [split; [apply Z.div_pos; lia|apply Z.div_lt_upper_bound; lia]|].
  apply Z.mod_pos_bound; lia.
Qed.

Example ex_sensitive_ok : frame_ok ex_sensitive = true.
Proof. reflexivity. Qed.

(* ------------------------------------------------------------------ *)
(** ** Claims *)

(** C1 (code_bug). A source whose [read] fails makes [handle_source] return
    [Err], and the [?] in [main] propagates it: the driver loop ends and no
    later source connection is ever served. *)
Theorem read_error_ends_driver
    (w : list event -> nat -> list Z -> bool) (reads : list read_result)
    (rest : list accept_result) (st : relay) :
  main_loop w (AccOk (RdErr :: reads) :: rest) st = (MainErr, st, 1%nat).
Proof. reflexivity. Qed.

(** C2 (code_bug). On a buffer holding a sensitive frame with a bad checksum
    followed by a complete valid frame, one pass of the drain loop drops the
    bad frame and then stops ([break]): the valid frame is not broadcast in
    that pass and stays in the buffer. *)
Theorem drain_stops_after_bad_checksum
    (w : list event -> nat -> list Z -> bool) :
  drain w (ex_bad ++ ex_plain) (mk_relay [1%nat] [])
  = (ex_plain, mk_relay [1%nat] [Dropped ex_bad]).
Proof. reflexivity. Qed.

(** C3. On byte strings, [verify_checksum] is exactly the spec's check: the
    complement of the end-around-carry sum of the big-endian words from
    offset 0, with [0xCCCC] at offset 4 and an odd last byte zero-padded,
    compared with the stated checksum. *)
Theorem verify_checksum_is_ones_complement (message : list Z) (checksum : Z) :
  Forall is_byte message ->
  verify_checksum message checksum = SpecChecksum.verify message checksum.
Proof. apply verify_checksum_spec. Qed.

Lemma verify_checksum_is_ones_complement_witness :
  verify_checksum ex_sensitive 0xF032 = SpecChecksum.verify ex_sensitive 0xF032.
Proof.
  apply verify_checksum_is_ones_complement.
  unfold ex_sensitive, mk_frame, is_byte. repeat constructor; lia.
Defined.

(** C4. Sender-compute then receiver-verify: for any header bytes and any
    payload, the checksum a sender computes over the frame with its checksum
    field filled with the placeholder [CC CC], written big-endian into that
    field, makes [verify_checksum] accept the frame. *)
Theorem checksum_roundtrip (options len_hi len_lo r1 r2 : Z) (payload : list Z) :
  Forall is_byte [options; len_hi; len_lo; r1; r2] -> Forall is_byte payload ->
  let ck := SpecChecksum.sender_checksum
              (mk_frame options len_hi len_lo 0xCC 0xCC r1 r2 payload) in
  verify_checksum
    (mk_frame options len_hi len_lo (Z.shiftr ck 8) (Z.land ck 0xFF) r1 r2 payload)
    ck = true.
Proof.
  intros Hh Hp ck.
  assert (Hplace : Forall is_byte (mk_frame options len_hi len_lo 0xCC 0xCC r1 r2 payload)).
  { unfold mk_frame. inversion Hh as [|? ? H1 H2]; subst.
    inversion H2 as [|? ? H3 H4]; subst. inversion H4 as [|? ? H5 H6]; subst.
    inversion H6 as [|? ? H7 H8]; subst. inversion H8 as [|? ? H9 _]; subst.
    unfold is_byte in *.
    repeat (apply Forall_cons; [lia|]). exact Hp. }
  assert (Hck : 0 <= ck <= 0xFFFF).
  { unfold ck, SpecChecksum.sender_checksum, SpecChecksum.complement16,
      SpecChecksum.oc_sum.
    rewrite <- (words_plain_after 6) by lia.
    pose proof (fold_oc_range _ 0 (words_range 6 _ Hplace)). lia. }
  destruct (byte_of_u16 ck Hck) as [Bh Bl].
  rewrite verify_checksum_spec.
  - unfold SpecChecksum.verify. apply Z.eqb_eq.
    unfold ck, SpecChecksum.sender_checksum. f_equal. f_equal.
    unfold mk_frame. simpl app. cbn [SpecChecksum.words SpecChecksum.plain_words].
    simpl Nat.eqb. cbn iota.
    rewrite (words_plain_after 8) by lia. reflexivity.
  - unfold mk_frame. inversion Hplace as [|? ? A1 T1]; subst.
    inversion T1 as [|? ? A2 T2]; subst. inversion T2 as [|? ? A3 T3]; subst.
    inversion T3 as [|? ? A4 T4]; subst. inversion T4 as [|? ? A5 T5]; subst.
    inversion T5 as [|? ? A6 T6]; subst.
    repeat (apply Forall_cons; [assumption|]). exact T6.
Qed.

Lemma checksum_roundtrip_witness :
  verify_checksum
    (mk_frame 0x40 0 3
       (Z.shiftr (SpecChecksum.sender_checksum (mk_frame 0x40 0 3 0xCC 0xCC 0 0 [0xAA; 0xBB; 0xCC])) 8)
       (Z.land (SpecChecksum.sender_checksum (mk_frame 0x40 0 3 0xCC 0xCC 0 0 [0xAA; 0xBB; 0xCC])) 0xFF)
       0 0 [0xAA; 0xBB; 0xCC])
    (SpecChecksum.sender_checksum (mk_frame 0x40 0 3 0xCC 0xCC 0 0 [0xAA; 0xBB; 0xCC]))
  = true.
Proof.
  apply (checksum_roundtrip 0x40 0 3 0 0 [0xAA; 0xBB; 0xCC]);
    unfold is_byte; repeat constructor; lia.
Defined.

(** C5. Two consecutive valid frames delivered in two reads, split at any
    inner boundary, give the same session as one read of all their bytes;
    and that session broadcasts the first frame, then the second, leaving
    an empty buffer. *)
Theorem split_boundary_invariance
    (w : list event -> nat -> list Z -> bool) (f1 f2 : list Z) (k : nat)
    (more : list read_result) (st : relay) :
  frame_ok f1 = true -> frame_ok f2 = true ->
  (0 < k < length (f1 ++ f2))%nat ->
  handle_source w (RdOk (firstn k (f1 ++ f2)) :: RdOk (skipn k (f1 ++ f2)) :: more) st
  = handle_source w (RdOk (f1 ++ f2) :: more) st
  /\ handle_source w (RdOk (f1 ++ f2) :: more) st
     = handle_loop w more [] (broadcast w f2 (broadcast w f1 st)).
Proof.
  intros H1 H2 Hk.
  assert (Hn1 : (0 < length f1)%nat) by (destruct f1; [discriminate|simpl; lia]).
  assert (Hn2 : (0 < length f2)%nat) by (destruct f2; [discriminate|simpl; lia]).
  assert (Whole : handle_source w (RdOk (f1 ++ f2) :: more) st
                  = handle_loop w more [] (broadcast w f2 (broadcast w f1 st))).
  { unfold handle_source. simpl handle_loop.
    destruct (Nat.eqb_spec (length (f1 ++ f2)) 0); [rewrite length_app in *; lia|].
    rewrite (drain_frame w f1 f2 st H1).
    rewrite <- (app_nil_r f2) at 1. rewrite (drain_frame w f2 [] _ H2).
    rewrite drain_nil. reflexivity. }
  split; [|exact Whole].
  rewrite Whole. unfold handle_source. simpl handle_loop.
  rewrite length_app in Hk.
  rewrite length_firstn, length_app.
  destruct (Nat.eqb_spec (Nat.min k (length f1 + length f2)) 0); [lia|].
  rewrite firstn_app, skipn_app.
  destruct (Nat.lt_total k (length f1)) as [Hlt|[Heq|Hgt]].
  - (* the first read ends inside the first frame *)
    replace (k - length f1)%nat with O by lia. simpl firstn. simpl skipn.
    rewrite ?app_nil_r, ?app_nil_l.
    rewrite (drain_stop w _ _ st (decode_step_prefix f1 k H1 ltac:(lia))).
    rewrite length_app, length_skipn.
    destruct (Nat.eqb_spec (length f1 - k + length f2) 0); [lia|].
    rewrite app_assoc, firstn_skipn.
    rewrite (drain_frame w f1 f2 st H1).
    rewrite <- (app_nil_r f2) at 1. rewrite (drain_frame w f2 [] _ H2).
    rewrite drain_nil. reflexivity.
  - (* the first read ends at the frame boundary *)
    subst k. rewrite Nat.sub_diag. simpl firstn. simpl skipn.
    rewrite firstn_all, skipn_all, ?app_nil_r, ?app_nil_l.
    rewrite <- (app_nil_r f1) at 1. rewrite (drain_frame w f1 [] st H1).
    rewrite drain_nil.
    destruct (Nat.eqb_spec (length f2) 0); [lia|].
    rewrite ?app_nil_l.
    rewrite <- (app_nil_r f2) at 1. rewrite (drain_frame w f2 [] _ H2).
    rewrite drain_nil. reflexivity.
  - (* the first read ends inside the second frame *)
    rewrite firstn_all2 by lia. rewrite skipn_all2 by lia. rewrite ?app_nil_l.
    rewrite (drain_frame w f1 _ st H1).
    rewrite (drain_stop w _ _ _ (decode_step_prefix f2 (k - length f1) H2 ltac:(lia))).
    rewrite length_skipn.
    destruct (Nat.eqb_spec (length f2 - (k - length f1)) 0); [lia|].
    rewrite firstn_skipn.
    rewrite <- (app_nil_r f2) at 1. rewrite (drain_frame w f2 [] _ H2).
    rewrite drain_nil. reflexivity.
Qed.

Lemma split_boundary_invariance_witness :
  handle_source all_ok
    (RdOk (firstn 5 (ex_sensitive ++ ex_plain))
     :: RdOk (skipn 5 (ex_sensitive ++ ex_plain)) :: [RdOk []])
    (mk_relay [1%nat; 2%nat] [])
  = handle_source all_ok (RdOk (ex_sensitive ++ ex_plain) :: [RdOk []])
      (mk_relay [1%nat; 2%nat] [])
  /\ handle_source all_ok (RdOk (ex_sensitive ++ ex_plain) :: [RdOk []])
       (mk_relay [1%nat; 2%nat] [])
     = handle_loop all_ok [RdOk []] []
         (broadcast all_ok ex_plain (broadcast all_ok ex_sensitive (mk_relay [1%nat; 2%nat] []))).
Proof.
  apply split_boundary_invariance; [reflexivity|reflexivity|vm_compute; lia].
Defined.

(** C6. For a complete frame at the front of the buffer, the decoder
    consults [verify_checksum] only when bit 6 of the options byte is set;
    with the bit clear the frame is forwarded whatever its checksum field
    holds. *)
Theorem checksum_only_when_sensitive (t rest : list Z) :
  length (0xCC :: t) = (8 + hdr_length (0xCC%Z :: t))%nat ->
  decode_step ((0xCC :: t) ++ rest)
  = if Z.testbit (nth 0 t 0) 6
    then (if verify_checksum (0xCC :: t) (hdr_checksum (0xCC :: t))
          then Forward (0xCC :: t) rest else Drop (0xCC :: t) rest)
    else Forward (0xCC :: t) rest.
Proof.
  intros Hl. simpl app. rewrite decode_step_magic.
  change (0xCC :: t ++ rest) with ((0xCC :: t) ++ rest).
  rewrite decode_at_frame by exact Hl.
  rewrite sensitive_bit_testbit. simpl nth.
  destruct (Z.testbit (nth 0 t 0) 6); [|reflexivity].
  destruct (verify_checksum (0xCC :: t) (hdr_checksum (0xCC :: t))); reflexivity.
Qed.

Lemma checksum_only_when_sensitive_witness :
  decode_step ((0xCC :: [0; 0; 0; 0x12; 0x34; 0; 0]) ++ [0xCC])
  = if Z.testbit (nth 0 [0; 0; 0; 0x12; 0x34; 0; 0] 0) 6
    then (if verify_checksum (0xCC :: [0; 0; 0; 0x12; 0x34; 0; 0])
               (hdr_checksum (0xCC :: [0; 0; 0; 0x12; 0x34; 0; 0]))
          then Forward (0xCC :: [0; 0; 0; 0x12; 0x34; 0; 0]) [0xCC]
          else Drop (0xCC :: [0; 0; 0; 0x12; 0x34; 0; 0]) [0xCC])
    else Forward (0xCC :: [0; 0; 0; 0x12; 0x34; 0; 0]) [0xCC].
Proof. apply checksum_only_when_sensitive. reflexivity. Defined.

(** C7. Resynchronisation: a decoder iteration on [noise ++ rest], with no
    magic byte in [noise], is the iteration on [rest] ([noise] is discarded
    exactly); a buffer of noise alone is cleared; and noise followed by one
    valid frame drains to exactly that frame's broadcast, leaving the buffer
    empty. *)
Theorem noise_then_frame
    (w : list event -> nat -> list Z -> bool) (noise f : list Z) (st : relay) :
  Forall not_magic noise -> frame_ok f = true ->
  (forall rest, decode_step (noise ++ rest) = decode_step rest)
  /\ decode_step noise = Stop []
  /\ drain w (noise ++ f) st = ([], broadcast w f st).
Proof.
  intros Hn Hf. split; [|split].
  - intros rest. apply decode_step_noise, Hn.
  - rewrite <- (app_nil_r noise). rewrite decode_step_noise by exact Hn.
    reflexivity.
  - rewrite drain_noise by exact Hn.
    rewrite <- (app_nil_r f) at 1. rewrite (drain_frame w f [] st Hf).
    apply drain_nil.
Qed.

Lemma noise_then_frame_witness :
  (forall rest, decode_step ([1; 2; 0xCB] ++ rest) = decode_step rest)
  /\ decode_step [1; 2; 0xCB] = Stop []
  /\ drain all_ok ([1; 2; 0xCB] ++ ex_sensitive) (mk_relay [7%nat] [])
     = ([], broadcast all_ok ex_sensitive (mk_relay [7%nat] [])).
Proof.
  apply noise_then_frame; [|reflexivity].
  unfold not_magic; repeat constructor; lia.
Defined.

(** C8. A buffer that starts with the magic byte but holds fewer than
    [8 + length] bytes is left as it is, and nothing is emitted. *)
Theorem partial_frame_retained
    (w : list event -> nat -> list Z -> bool) (t : list Z) (st : relay) :
  (length (0xCC%Z :: t) < 8 + hdr_length (0xCC%Z :: t))%nat ->
  drain w (0xCC :: t) st = (0xCC :: t, st).
Proof.
  intros H. apply drain_stop. rewrite decode_step_magic.
  apply decode_at_partial, H.
Qed.

Lemma partial_frame_retained_witness :
  drain all_ok (0xCC :: [0x40; 0; 3; 0xF0; 0x32; 0; 0; 0xAA]) (mk_relay [1%nat] [])
  = (0xCC :: [0x40; 0; 3; 0xF0; 0x32; 0; 0; 0xAA], mk_relay [1%nat] []).
Proof. apply partial_frame_retained. vm_compute. lia. Defined.

(** C9. One broadcast pass writes the message to every registered
    destination in registry order, whatever the outcome of earlier writes,
    and afterwards the registry holds exactly the destinations whose write
    succeeded, in their previous relative order. *)
Theorem broadcast_prunes_failed
    (w : list event -> nat -> list Z -> bool) (msg : list Z) (st : relay) :
  exists oks : list bool,
    length oks = length (dests st)
    /\ trace (broadcast w msg st)
       = trace st ++ map (fun '(d, ok) => Write d msg ok) (combine (dests st) oks)
    /\ dests (broadcast w msg st) = map fst (filter snd (combine (dests st) oks)).
Proof.
  destruct (write_pass_spec w msg (dests st) [] (trace st)) as (oks & Hl & Ht & Hr).
  exists oks. unfold broadcast. simpl length in Ht, Hr.
  destruct (write_pass w msg 0 (dests st) (trace st)) as [tr rm]. simpl in *.
  auto.
Qed.

(** C10. A sensitive frame that fails verification has already been cut
    from the front of the buffer: the drain ends with exactly the bytes
    after it, and only the diagnostic is recorded. *)
Theorem bad_checksum_frame_consumed
    (w : list event -> nat -> list Z -> bool) (t rest : list Z) (st : relay) :
  length (0xCC :: t) = (8 + hdr_length (0xCC%Z :: t))%nat ->
  sensitive_bit (0xCC :: t) = 1 ->
  verify_checksum (0xCC :: t) (hdr_checksum (0xCC :: t)) = false ->
  drain w ((0xCC :: t) ++ rest) st
  = (rest, mk_relay (dests st) (trace st ++ [Dropped (0xCC :: t)])).
Proof.
  intros Hl Hs Hv. apply drain_drop.
  simpl app. rewrite decode_step_magic.
  change (0xCC :: t ++ rest) with ((0xCC :: t) ++ rest).
  rewrite decode_at_frame by exact Hl. rewrite Hs, Hv. reflexivity.
Qed.

Lemma bad_checksum_frame_consumed_witness :
  drain all_ok ((0xCC :: [0x40; 0; 0; 0; 0; 0; 0]) ++ ex_plain) (mk_relay [1%nat] [])
  = (ex_plain, mk_relay [1%nat] ([] ++ [Dropped (0xCC :: [0x40; 0; 0; 0; 0; 0; 0])])).
Proof.
  apply (bad_checksum_frame_consumed all_ok [0x40; 0; 0; 0; 0; 0; 0] ex_plain
           (mk_relay [1%nat] [])); reflexivity.
Defined.

(* ------------------------------------------------------------------ *)
(** ** Further properties of the code *)

Lemma cks_word_ext (m m' : list Z) (i : nat) :
  length m = length m' ->
  (forall j, j <> 4%nat -> j <> 5%nat -> nth j m 0 = nth j m' 0) ->
  Nat.even i = true -> cks_word m i = cks_word m' i.
Proof.
  intros Hl Hn He. unfold cks_word. rewrite Hl.
  destruct (Nat.eqb_spec i 4) as [|Hi4]; [reflexivity|].
  assert (Hi5 : i <> 5%nat) by (intros ->; discriminate).
  assert (Hi3 : i <> 3%nat) by (intros ->; discriminate).
  rewrite (Hn i Hi4 Hi5), (Hn (i + 1)%nat) by lia. reflexivity.
Qed.

Lemma cks_loop_ext (fuel : nat) (m m' : list Z) (i : nat) (sum : Z) :
  length m = length m' ->
  (forall j, j <> 4%nat -> j <> 5%nat -> nth j m 0 = nth j m' 0) ->
  Nat.even i = true -> cks_loop fuel m i sum = cks_loop fuel m' i sum.
Proof.
  intros Hl Hn. revert i sum. induction fuel as [|f IH]; intros i sum He; [reflexivity|].
  cbn [cks_loop]. rewrite Hl.
  destruct (Nat.ltb i (length m')); [|reflexivity].
  rewrite (cks_word_ext m m' i Hl Hn He). apply IH.
  replace (i + 2)%nat with (S (S i)) by lia. exact He.
Qed.

Lemma words_pad_odd (i : nat) (m : list Z) :
  Nat.odd (length m) = true ->
  SpecChecksum.words i (m ++ [0]) = SpecChecksum.words i m.
Proof.
  revert i. induction m as [m IH] using (induction_ltof1 _ (@length Z)).
  unfold ltof in IH. intros i Ho.
  destruct m as [|h [|l t]]; [discriminate| |].
  - simpl. rewrite Z.add_0_r. reflexivity.
  - simpl app. cbn [SpecChecksum.words]. f_equal.
    destruct t as [|x t']; [discriminate|].
    apply IH; [simpl; lia|exact Ho].
Qed.

Lemma words_pad_even (i : nat) (m : list Z) :
  Nat.even (length m) = true ->
  SpecChecksum.words i (m ++ [0; 0])
  = SpecChecksum.words i m
    ++ [if Nat.eqb (i + length m) 4 then 0xCCCC else 0].
Proof.
  revert i. induction m as [m IH] using (induction_ltof1 _ (@length Z)).
  unfold ltof in IH. intros i He.
  destruct m as [|h [|l t]]; [| discriminate |].
  - simpl. rewrite Nat.add_0_r. reflexivity.
  - simpl app. cbn [SpecChecksum.words].
    destruct t as [|x t'].
    + simpl. replace (i + 2)%nat with (i + 2 + 0)%nat by lia. reflexivity.
    + rewrite IH by (simpl in *; auto; lia). simpl length.
      replace (i + 2 + S (length t'))%nat with (i + S (S (S (length t'))))%nat by lia.
      reflexivity.
Qed.

Lemma oc_sum_app_zero (ws : list Z) :
  Forall (fun w => 0 <= w <= 0xFFFF) ws ->
  SpecChecksum.oc_sum (ws ++ [0]) = SpecChecksum.oc_sum ws.
Proof.
  intros H. unfold SpecChecksum.oc_sum. rewrite fold_left_app.
  pose proof (fold_oc_range ws 0 H ltac:(lia)) as R.
  generalize dependent (fold_left SpecChecksum.oc_add ws 0). intros s R.
  cbn [fold_left]. unfold SpecChecksum.oc_add. rewrite Z.add_0_r.
  destruct (Z.gtb_spec s 0xFFFF); lia.
Qed.

Lemma forall_byte_app (a b : list Z) :
  Forall is_byte a -> Forall is_byte b -> Forall is_byte (a ++ b).
Proof. intros; apply Forall_app; auto. Qed.

(** Bytes 4 and 5 of the message (the transmitted checksum field) never
    influence [verify_checksum]. *)
Theorem verify_ignores_checksum_field (a c : list Z) (x y x' y' ck : Z) :
  length a = 4%nat ->
  verify_checksum (a ++ x :: y :: c) ck = verify_checksum (a ++ x' :: y' :: c) ck.
Proof.
  intros Ha. unfold verify_checksum.
  assert (Hl : length (a ++ x :: y :: c) = length (a ++ x' :: y' :: c))
    by (rewrite !length_app; reflexivity).
  rewrite Hl, (cks_loop_ext _ (a ++ x :: y :: c) (a ++ x' :: y' :: c)); auto.
  intros j H4 H5.
  destruct a as [|a0 [|a1 [|a2 [|a3 [|]]]]]; try discriminate.
  destruct j as [|[|[|[|[|[|j]]]]]]; try reflexivity; lia.
Qed.

Lemma verify_ignores_checksum_field_witness :
  verify_checksum ([0xCC; 0x40; 0; 3] ++ 0xF0 :: 0x32 :: [0; 0; 0xAA; 0xBB; 0xCC]) 0xF032
  = verify_checksum ([0xCC; 0x40; 0; 3] ++ 0 :: 0 :: [0; 0; 0xAA; 0xBB; 0xCC]) 0xF032.
Proof. apply verify_ignores_checksum_field. reflexivity. Defined.

(** An odd-length message is checked as if its last byte were followed by
    a zero byte. *)
Theorem verify_pad_odd (m : list Z) (ck : Z) :
  Forall is_byte m -> Nat.odd (length m) = true ->
  verify_checksum (m ++ [0]) ck = verify_checksum m ck.
Proof.
  intros Hb Ho.
  rewrite !verify_checksum_spec
    by first [exact Hb | apply forall_byte_app; [exact Hb|unfold is_byte; repeat constructor; lia]].
  unfold SpecChecksum.verify. rewrite words_pad_odd by exact Ho. reflexivity.
Qed.

Lemma verify_pad_odd_witness :
  verify_checksum ([0xCC; 0; 0; 1; 0; 0; 0; 0; 0x7F] ++ [0]) 0x32FF
  = verify_checksum [0xCC; 0; 0; 1; 0; 0; 0; 0; 0x7F] 0x32FF.
Proof.
  apply verify_pad_odd; [unfold is_byte; repeat constructor; lia|reflexivity].
Defined.

(** Appending a zero word to an even-length message leaves the check
    unchanged, except at length 4, where the appended word sits at offset 4
    and is replaced by [0xCCCC]. *)
Theorem verify_pad_zero_word (m : list Z) (ck : Z) :
  Forall is_byte m -> Nat.even (length m) = true -> length m <> 4%nat ->
  verify_checksum (m ++ [0; 0]) ck = verify_checksum m ck.
Proof.
  intros Hb He H4.
  rewrite !verify_checksum_spec
    by first [exact Hb | apply forall_byte_app; [exact Hb|unfold is_byte; repeat constructor; lia]].
  unfold SpecChecksum.verify. rewrite words_pad_even by exact He.
  simpl Nat.add. destruct (Nat.eqb_spec (length m) 4); [contradiction|].
  rewrite oc_sum_app_zero by (apply words_range, Hb). reflexivity.
Qed.

Lemma verify_pad_zero_word_witness :
  verify_checksum ([0xCC; 0x40; 0; 3; 0xF0; 0x32; 0; 0; 0xAA; 0xBB] ++ [0; 0]) 0x1234
  = verify_checksum [0xCC; 0x40; 0; 3; 0xF0; 0x32; 0; 0; 0xAA; 0xBB] 0x1234.
Proof.
  apply verify_pad_zero_word; [unfold is_byte; repeat constructor; lia|reflexivity|discriminate].
Defined.

Lemma position_magic_spec (buffer : list Z) (pos : nat) :
  position_magic buffer = Some pos -> exists t, skipn pos buffer = 0xCC :: t.
Proof.
  revert pos. induction buffer as [|b t IH]; intros pos H; [discriminate|].
  simpl in H. destruct (Z.eqb_spec b 0xCC) as [->|].
  - injection H as <-. exists t. reflexivity.
  - destruct (position_magic t) as [p|]; [|discriminate].
    injection H as <-. apply IH. reflexivity.
Qed.

Lemma skipn_suffix (n : nat) (l : list Z) : exists p, l = p ++ skipn n l.
Proof. exists (firstn n l). symmetry. apply firstn_skipn. Qed.

Lemma decode_at_suffix (buffer : list Z) :
  exists p, buffer = p ++ step_buffer (decode_at buffer).
Proof.
  unfold decode_at.
  destruct (Nat.ltb (length buffer) 8); [exists []; reflexivity|].
  destruct (Nat.ltb (length buffer) (8 + hdr_length buffer)); [exists []; reflexivity|].
  destruct (_ && _); apply skipn_suffix.
Qed.

(** Whatever one decoder iteration leaves in the buffer is a suffix of it. *)
Lemma decode_step_suffix (buffer : list Z) :
  exists p, buffer = p ++ step_buffer (decode_step buffer).
Proof.
  rewrite decode_step_skipn.
  destruct (position_magic buffer) as [pos|]; [|exists buffer; simpl; rewrite app_nil_r; reflexivity].
  destruct (decode_at_suffix (skipn pos buffer)) as [q Hq].
  exists (firstn pos buffer ++ q). rewrite <- app_assoc, <- Hq.
  symmetry. apply firstn_skipn.
Qed.

Lemma frame_ok_intro (m : list Z) :
  hd_error m = Some 0xCC -> length m = (8 + hdr_length m)%nat ->
  (sensitive_bit m =? 1) && negb (verify_checksum m (hdr_checksum m)) = false ->
  frame_ok m = true.
Proof.
  destruct m as [|x u]; intros Hh Hl Hc; [discriminate|].
  injection Hh as ->. unfold frame_ok.
  rewrite Z.eqb_refl, <- Hl, Nat.eqb_refl. simpl andb.
  destruct (sensitive_bit (0xCC :: u) =? 1); simpl in *; [|reflexivity].
  apply negb_false_iff in Hc. exact Hc.
Qed.

(** Every message the decoder forwards is a complete, valid frame. *)
Lemma decode_step_forward_ok (buffer m b : list Z) :
  decode_step buffer = Forward m b -> frame_ok m = true.
Proof.
  rewrite decode_step_skipn.
  destruct (position_magic buffer) as [pos|] eqn:Ep; [|discriminate].
  destruct (position_magic_spec _ _ Ep) as [t Ht]. rewrite Ht.
  set (b0 := 0xCC :: t). unfold decode_at.
  destruct (Nat.ltb_spec (length b0) 8); [discriminate|].
  destruct (Nat.ltb_spec (length b0) (8 + hdr_length b0)); [discriminate|].
  assert (Hh : hdr_length (firstn (8 + hdr_length b0) b0) = hdr_length b0
            /\ hdr_checksum (firstn (8 + hdr_length b0) b0) = hdr_checksum b0
            /\ sensitive_bit (firstn (8 + hdr_length b0) b0) = sensitive_bit b0).
  { unfold hdr_length, hdr_checksum, sensitive_bit.
    rewrite !nth_firstn_lt by lia. auto. }
  destruct Hh as (H1 & H2 & H3).
  destruct ((sensitive_bit b0 =? 1) && negb (verify_checksum (firstn (8 + hdr_length b0) b0)
              (hdr_checksum b0))) eqn:Ec; intros E; [discriminate|].
  injection E as <- _.
  revert H1 H2 H3 Ec.
  unfold b0. replace (8 + hdr_length (0xCC%Z :: t))%nat with (S (7 + hdr_length (0xCC%Z :: t)))
    by (unfold b0 in *; lia).
  rewrite firstn_cons. set (m := 0xCC :: firstn (7 + hdr_length (0xCC%Z :: t)) t).
  intros H1 H2 H3 Ec.
  assert (Hlen : length m = (8 + hdr_length m)%nat).
  { rewrite H1. unfold m. cbn [length]. rewrite length_firstn.
    unfold b0 in *. cbn [length] in *. lia. }
  apply (frame_ok_intro m); [reflexivity|exact Hlen|].
  rewrite H2, H3. exact Ec.
Qed.

Lemma decode_step_stop_shape (buffer b : list Z) :
  decode_step buffer = Stop b ->
  b = [] \/ (exists t, b = 0xCC :: t) /\ (length b < 8 + hdr_length b)%nat.
Proof.
  rewrite decode_step_skipn.
  destruct (position_magic buffer) as [pos|] eqn:Ep; [|intros E; injection E as <-; auto].
  destruct (position_magic_spec _ _ Ep) as [t Ht]. rewrite Ht.
  unfold decode_at.
  destruct (Nat.ltb_spec (length (0xCC :: t)) 8).
  { intros E; injection E as <-. right. split; [eauto|lia]. }
  destruct (Nat.ltb_spec (length (0xCC :: t)) (8 + hdr_length (0xCC%Z :: t))).
  { intros E; injection E as <-. right. split; [eauto|lia]. }
  destruct (_ && _); discriminate.
Qed.

Section SessionInvariant.

Variable w : list event -> nat -> list Z -> bool.
Variable R : relay -> relay -> Prop.
Hypothesis R_refl : forall st, R st st.
Hypothesis R_trans : forall a b c, R a b -> R b c -> R a c.
Hypothesis R_broadcast : forall m st, frame_ok m = true -> R st (broadcast w m st).
Hypothesis R_drop : forall m st, R st (mk_relay (dests st) (trace st ++ [Dropped m])).

Lemma drain_fuel_inv (n : nat) (buffer : list Z) (st : relay) :
  R st (snd (drain_fuel w n buffer st)).
Proof.
  revert buffer st. induction n as [|n IH]; intros buffer st; simpl; [apply R_refl|].
  destruct (decode_step buffer) as [b|m b|m b] eqn:E; simpl; auto.
  eapply R_trans; [apply R_broadcast, (decode_step_forward_ok buffer m b E)|apply IH].
Qed.

Lemma handle_loop_inv (reads : list read_result) (buffer : list Z) (st : relay) :
  R st (snd (handle_loop w reads buffer st)).
Proof.
  revert buffer st. induction reads as [|r reads IH]; intros buffer st; simpl; [apply R_refl|].
  destruct r as [chunk|]; [|apply R_refl].
  destruct (Nat.eqb (length chunk) 0); [apply R_refl|].
  unfold drain. pose proof (drain_fuel_inv (S (length (buffer ++ chunk))) (buffer ++ chunk) st) as H.
  destruct (drain_fuel w _ _ _) as [b st']. simpl in H.
  eapply R_trans; [exact H|apply IH].
Qed.

Lemma main_loop_inv (sources : list accept_result) (st : relay) :
  R st (snd (fst (main_loop w sources st))).
Proof.
  revert st. induction sources as [|s sources IH]; intros st; simpl; [apply R_refl|].
  destruct s as [reads|]; [|apply R_refl].
  pose proof (handle_loop_inv reads [] st) as H. unfold handle_source.
  destruct (handle_loop w reads [] st) as [[] st']; simpl in *; auto.
  pose proof (IH st') as H'.
  destruct (main_loop w sources st') as [[o st''] n]. simpl in *.
  eapply R_trans; eauto.
Qed.

End SessionInvariant.

Lemma appends_valid_broadcast (w : list event -> nat -> list Z -> bool) (m : list Z) (st : relay) :
  frame_ok m = true -> appends_valid st (broadcast w m st).
Proof.
  intros Hm. destruct (write_pass_spec w m (dests st) [] (trace st)) as (oks & _ & Ht & _).
  unfold appends_valid, broadcast. simpl length in Ht.
  destruct (write_pass w m 0 (dests st) (trace st)) as [tr rm]. simpl in *.
  eexists; split; [exact Ht|].
  apply Forall_forall. intros e He. apply in_map_iff in He as ([d ok] & <- & _).
  exact Hm.
Qed.

Lemma incl_filter_combine (l : list nat) (oks : list bool) :
  incl (map fst (filter snd (combine l oks))) l.
Proof.
  revert oks. induction l as [|d l IH]; intros oks; simpl; [apply incl_refl|].
  destruct oks as [|ok oks]; simpl; [apply incl_nil_l|].
  destruct ok; simpl.
  - apply incl_cons; [left; reflexivity|]. apply incl_tl, IH.
  - apply incl_tl, IH.
Qed.

Lemma incl_broadcast (w : list event -> nat -> list Z -> bool) (m : list Z) (st : relay) :
  incl (dests (broadcast w m st)) (dests st).
Proof.
  destruct (write_pass_spec w m (dests st) [] (trace st)) as (oks & _ & _ & Hr).
  unfold broadcast. simpl length in Hr. simpl app in Hr.
  destruct (write_pass w m 0 (dests st) (trace st)) as [tr rm]. simpl in *.
  rewrite Hr. apply incl_filter_combine.
Qed.

Lemma drain_fuel_leftover (w : list event -> nat -> list Z -> bool)
    (n : nat) (buffer : list Z) (st : relay) :
  (length buffer < n)%nat ->
  (exists p, buffer = p ++ fst (drain_fuel w n buffer st))
  /\ (leftover_shape (fst (drain_fuel w n buffer st))
      \/ ends_with_drop (snd (drain_fuel w n buffer st))).
Proof.
  revert buffer st. induction n as [|n IH]; intros buffer st Hn; [lia|].
  pose proof (decode_step_suffix buffer) as [p Hp].
  simpl. destruct (decode_step buffer) as [b|m b|m b] eqn:E; simpl in Hp |- *.
  - split; [eauto|left; apply (decode_step_stop_shape buffer b E)].
  - split; [eauto|right; exists (trace st), m; reflexivity].
  - pose proof (decode_step_forward_shorter _ _ _ E) as Hs.
    destruct (IH b (broadcast w m st) ltac:(lia)) as [[q Hq] Hshape].
    split; [|exact Hshape].
    exists (p ++ q). rewrite <- app_assoc, <- Hq. exact Hp.
Qed.

Lemma nth_byte (b : list Z) (i : nat) :
  Forall is_byte b -> is_byte (nth i b 0).
Proof.
  intros H. destruct (Nat.lt_ge_cases i (length b)).
  - rewrite Forall_forall in H. apply H, nth_In. assumption.
  - rewrite nth_overflow by assumption. unfold is_byte; lia.
Qed.

Lemma hdr_length_bound (b : list Z) :
  Forall is_byte b -> Z.of_nat (hdr_length b) <= 65535.
Proof.
  intros H. unfold hdr_length, be16.
  pose proof (nth_byte b 2 H) as H2. pose proof (nth_byte b 3 H) as H3.
  rewrite Z.shiftl_mul_pow2 by lia. change (2 ^ 8) with 256.
  assert (E : Z.lor (nth 2 b 0 * 256) (nth 3 b 0) = nth 2 b 0 * 256 + nth 3 b 0).
  { rewrite <- Z.add_lor_land, land_shift8_byte by exact H3. lia. }
  rewrite E. unfold is_byte in *. rewrite Z2Nat.id; lia.
Qed.

Lemma broadcast_appends (w : list event -> nat -> list Z -> bool) (m : list Z) (st : relay) :
  exists ws, trace (broadcast w m st) = trace st ++ ws.
Proof.
  destruct (write_pass_spec w m (dests st) [] (trace st)) as (oks & _ & Ht & _).
  unfold broadcast. simpl length in Ht.
  destruct (write_pass w m 0 (dests st) (trace st)) as [tr rm]. simpl in *. eauto.
Qed.

Lemma drain_fuel_drop_since (w : list event -> nat -> list Z -> bool)
    (n : nat) (buffer : list Z) (st : relay) :
  (length buffer < n)%nat ->
  leftover_shape (fst (drain_fuel w n buffer st))
  \/ drop_since st (snd (drain_fuel w n buffer st)).
Proof.
  revert buffer st. induction n as [|n IH]; intros buffer st Hn; [lia|].
  simpl. destruct (decode_step buffer) as [b|m b|m b] eqn:E; simpl.
  - left; apply (decode_step_stop_shape buffer b E).
  - right. exists [], m. reflexivity.
  - pose proof (decode_step_forward_shorter _ _ _ E) as Hs.
    destruct (IH b (broadcast w m st) ltac:(lia)) as [H|(evs & m' & H)]; [left; exact H|].
    right. destruct (broadcast_appends w m st) as [ws Hws].
    exists (ws ++ evs), m'. rewrite H, Hws, !app_assoc. reflexivity.
Qed.

Lemma remove_checked_prefix (w : list event -> nat -> list Z -> bool)
    (msg : list Z) (l p : list nat) (tr : list event) :
  remove_all_checked (snd (write_pass w msg (length p) l tr)) (p ++ l)
  = Some (fold_left (fun l0 i => vec_remove i l0)
            (rev (snd (write_pass w msg (length p) l tr))) (p ++ l)).
Proof.
  revert p tr. induction l as [|d l IH]; intros p tr; [reflexivity|].
  set (ok := w tr d msg).
  pose proof (IH (p ++ [d]) (tr ++ [Write d msg ok])) as Hi.
  destruct (write_pass_spec w msg l (p ++ [d]) (tr ++ [Write d msg ok]))
    as (oks & _ & _ & Hrm).
  rewrite length_app, Nat.add_1_r in Hi, Hrm.
  simpl write_pass. fold ok.
  destruct (write_pass w msg (S (length p)) l (tr ++ [Write d msg ok])) as [tr' rm].
  simpl snd in *. rewrite <- app_assoc in Hi, Hrm. simpl app in Hi, Hrm.
  destruct ok; [exact Hi|].
  unfold remove_all_checked in *. simpl rev. rewrite !fold_left_app, Hi, Hrm.
  simpl. unfold vec_remove_checked.
  rewrite (proj2 (Nat.ltb_lt _ _)); [reflexivity|].
  rewrite !length_app. simpl. lia.
Qed.

Lemma handle_loop_disconnect (w : list event -> nat -> list Z -> bool)
    (chunks : list (list Z)) (buffer : list Z) (st : relay) :
  Forall (fun c => c <> []) chunks ->
  fst (handle_loop w (map RdOk chunks ++ [RdOk []]) buffer st) = SessOk.
Proof.
  intros H. revert buffer st. induction H as [|c cs Hc _ IH]; intros buffer st; [reflexivity|].
  simpl. destruct (Nat.eqb_spec (length c) 0) as [E|].
  - destruct c; [contradiction|discriminate].
  - destruct (drain w (buffer ++ c) st) as [b st']. apply IH.
Qed.

Lemma broadcast_all_app (w : list event -> nat -> list Z -> bool)
    (fs1 fs2 : list (list Z)) (st : relay) :
  broadcast_all w (fs1 ++ fs2) st = broadcast_all w fs2 (broadcast_all w fs1 st).
Proof. unfold broadcast_all. apply fold_left_app. Qed.

Lemma firstn_le_app (n : nat) (x y : list Z) :
  (n <= length x)%nat -> firstn n (x ++ y) = firstn n x.
Proof.
  intros H. rewrite firstn_app. replace (n - length x)%nat with O by lia.
  simpl. apply app_nil_r.
Qed.

Lemma concat_frames_split (fs : list (list Z)) (x y : list Z) :
  Forall (fun f => frame_ok f = true) fs -> x ++ y = concat fs ->
  exists fs1 fs2 p, fs = fs1 ++ fs2 /\ x = concat fs1 ++ p /\ prefix_ok p fs2.
Proof.
  revert x. induction fs as [|f fs IH]; intros x Hf Hxy.
  - exists [], [], []. destruct x; [|discriminate].
    repeat split; left; reflexivity.
  - inversion Hf as [|? ? Hf1 Hfs]; subst. simpl in Hxy.
    destruct (Nat.lt_ge_cases (length x) (length f)) as [Hlt|Hge].
    + exists [], (f :: fs), x. split; [reflexivity|]. split; [reflexivity|].
      destruct x as [|b x']; [left; reflexivity|right].
      assert (Hn : firstn (length (b :: x')) ((b :: x') ++ y) = b :: x')
        by (rewrite (firstn_le_app _ _ _ (Nat.le_refl _)), firstn_all; reflexivity).
      rewrite Hxy, firstn_le_app in Hn by lia.
      exists f, fs, (length (b :: x')).
      split; [reflexivity|]. split; [symmetry; exact Hn|cbn [length] in *; lia].
    + assert (Hx : x = f ++ skipn (length f) x).
      { rewrite <- (firstn_skipn (length f) x) at 1. f_equal.
        rewrite <- (firstn_le_app (length f) x y) by lia.
        rewrite Hxy, firstn_le_app, firstn_all by lia. reflexivity. }
      rewrite Hx, <- app_assoc in Hxy. apply app_inv_head in Hxy.
      destruct (IH _ Hfs Hxy) as (fs1 & fs2 & p & E1 & E2 & E3).
      exists (f :: fs1), fs2, p. split; [rewrite E1; reflexivity|]. split; [|exact E3].
      rewrite Hx, E2. simpl. apply app_assoc.
Qed.

Lemma drain_concat (w : list event -> nat -> list Z -> bool)
    (fs1 fs2 : list (list Z)) (p : list Z) (st : relay) :
  Forall (fun f => frame_ok f = true) fs1 -> Forall (fun f => frame_ok f = true) fs2 ->
  prefix_ok p fs2 ->
  drain w (concat fs1 ++ p) st = (p, broadcast_all w fs1 st).
Proof.
  intros H1 H2 Hp. revert st. induction H1 as [|f fs Hf _ IH]; intros st.
  - simpl. destruct Hp as [->|(f & post & k & -> & -> & Hk)]; [apply drain_nil|].
    inversion H2 as [|? ? Hf _]; subst.
    apply drain_stop, decode_step_prefix; assumption.
  - simpl. rewrite <- app_assoc, drain_frame by exact Hf. apply IH.
Qed.

Lemma handle_loop_chunks (w : list event -> nat -> list Z -> bool)
    (chunks : list (list Z)) (more : list read_result)
    (p : list Z) (fs : list (list Z)) (st : relay) :
  Forall (fun f => frame_ok f = true) fs -> Forall (fun c => c <> []) chunks ->
  prefix_ok p fs -> p ++ concat chunks = concat fs ->
  handle_loop w (map RdOk chunks ++ more) p st
  = handle_loop w more [] (broadcast_all w fs st).
Proof.
  intros Hfs Hc. revert p fs st Hfs.
  induction Hc as [|c cs Hc _ IH]; intros p fs st Hfs Hp E.
  - simpl in E. rewrite app_nil_r in E. subst p.
    destruct Hp as [Hp|(f & post & k & -> & Hp & Hk)].
    + destruct fs as [|f fs]; [reflexivity|].
      inversion Hfs as [|? ? Hf _]; subst.
      simpl in Hp. apply app_eq_nil in Hp as [Hf' _].
      exfalso. destruct f; [discriminate|discriminate].
    + exfalso. simpl in Hp.
      apply (f_equal (@length Z)) in Hp.
      rewrite length_app, length_firstn in Hp. lia.
  - simpl. destruct (Nat.eqb_spec (length c) 0) as [Hl|].
    { destruct c; [contradiction|discriminate]. }
    simpl in E. rewrite app_assoc in E.
    destruct (concat_frames_split fs (p ++ c) (concat cs) Hfs E)
      as (fs1 & fs2 & p' & -> & Ex & Hp').
    apply Forall_app in Hfs as [Hf1 Hf2].
    rewrite Ex, (drain_concat w fs1 fs2 p' st Hf1 Hf2 Hp').
    rewrite broadcast_all_app. apply IH; [exact Hf2|exact Hp'|].
    rewrite Ex, concat_app, <- app_assoc in E. apply app_inv_head in E. exact E.
Qed.


(** Over any sequence of source sessions, every write the relay performs
    carries a complete, valid frame (magic byte, [8 + length] bytes, correct
    checksum when sensitive); the trace only grows. *)
Theorem relay_writes_only_valid_frames
    (w : list event -> nat -> list Z -> bool) (sources : list accept_result) (st : relay) :
  exists evs, trace (snd (fst (main_loop w sources st))) = trace st ++ evs
              /\ Forall event_ok evs.
Proof.
  apply (main_loop_inv w appends_valid).
  - intros s. exists []. split; [symmetry; apply app_nil_r|constructor].
  - intros a b c (e1 & H1 & F1) (e2 & H2 & F2). exists (e1 ++ e2).
    split; [rewrite H2, H1, app_assoc; reflexivity|apply Forall_app; auto].
  - intros m s Hm. apply appends_valid_broadcast, Hm.
  - intros m s. exists [Dropped m]. split; [reflexivity|repeat constructor].
Qed.

(** Source handling never registers a destination: after any sequence of
    source sessions, every registered destination was registered before. *)
Theorem sources_never_add_destinations
    (w : list event -> nat -> list Z -> bool) (sources : list accept_result) (st : relay) :
  incl (dests (snd (fst (main_loop w sources st)))) (dests st).
Proof.
  apply (main_loop_inv w (fun a b => incl (dests b) (dests a))).
  - intros s. apply incl_refl.
  - intros a b c H1 H2. eapply incl_tran; eauto.
  - intros m s _. apply incl_broadcast.
  - intros m s. apply incl_refl.
Qed.

(** The drain loop only removes bytes from the front of the buffer: what it
    leaves is a suffix of what it was given. *)
Theorem drain_consumes_prefix
    (w : list event -> nat -> list Z -> bool) (buffer b : list Z) (st st' : relay) :
  drain w buffer st = (b, st') -> exists p, buffer = p ++ b.
Proof.
  intros E. unfold drain in E.
  destruct (drain_fuel_leftover w (S (length buffer)) buffer st ltac:(lia)) as [H _].
  rewrite E in H. exact H.
Qed.

Lemma drain_consumes_prefix_witness :
  exists p, ([1; 2] ++ ex_plain ++ [0xCC; 0]) = p ++ [0xCC; 0].
Proof.
  apply (drain_consumes_prefix all_ok ([1; 2] ++ ex_plain ++ [0xCC; 0]) [0xCC; 0]
           (mk_relay [1%nat] []) (broadcast all_ok ex_plain (mk_relay [1%nat] []))).
  reflexivity.
Defined.

(** Unless the pass ended by dropping a frame, the drain loop leaves either
    an empty buffer or one that starts with the magic byte and holds less
    than a complete frame. *)
Theorem drain_leftover_incomplete
    (w : list event -> nat -> list Z -> bool) (buffer b : list Z) (st st' : relay) :
  drain w buffer st = (b, st') ->
  (b = [] \/ (exists t, b = 0xCC :: t) /\ (length b < 8 + hdr_length b)%nat)
  \/ (exists evs m, trace st' = trace st ++ evs ++ [Dropped m]).
Proof.
  intros E. unfold drain in E.
  pose proof (drain_fuel_drop_since w (S (length buffer)) buffer st ltac:(lia)) as H.
  rewrite E in H. exact H.
Qed.

Lemma drain_leftover_incomplete_witness :
  ([0xCC; 0] = [] \/ (exists t, [0xCC; 0] = 0xCC :: t)
                     /\ (length [0xCC%Z; 0%Z] < 8 + hdr_length [0xCC%Z; 0%Z])%nat)
  \/ (exists evs m, trace (broadcast all_ok ex_plain (mk_relay [1%nat] []))
                    = trace (mk_relay [1%nat] []) ++ evs ++ [Dropped m]).
Proof.
  apply (drain_leftover_incomplete all_ok ([1; 2] ++ ex_plain ++ [0xCC; 0]) [0xCC; 0]
           (mk_relay [1%nat] []) (broadcast all_ok ex_plain (mk_relay [1%nat] []))).
  reflexivity.
Defined.

(** On bytes, unless the pass ended by dropping a frame, the drain loop
    leaves fewer than [8 + 65535] bytes buffered. *)
Theorem drain_leftover_bounded
    (w : list event -> nat -> list Z -> bool) (buffer b : list Z) (st st' : relay) :
  Forall is_byte buffer -> drain w buffer st = (b, st') ->
  Z.of_nat (length b) < 65543
  \/ (exists evs m, trace st' = trace st ++ evs ++ [Dropped m]).
Proof.
  intros Hb E. unfold drain in E.
  destruct (drain_fuel_leftover w (S (length buffer)) buffer st ltac:(lia)) as [[p Hp] _].
  pose proof (drain_fuel_drop_since w (S (length buffer)) buffer st ltac:(lia)) as H.
  rewrite E in H, Hp. simpl in H, Hp.
  destruct H as [[->|(_ & Hl)]|H]; [left; simpl; lia| |right; exact H].
  left. rewrite Hp in Hb. apply Forall_app in Hb as [_ Hb].
  pose proof (hdr_length_bound b Hb). lia.
Qed.

Lemma drain_leftover_bounded_witness :
  Z.of_nat (length [0xCC; 0]) < 65543
  \/ (exists evs m, trace (broadcast all_ok ex_plain (mk_relay [1%nat] []))
                    = trace (mk_relay [1%nat] []) ++ evs ++ [Dropped m]).
Proof.
  apply (drain_leftover_bounded all_ok ([1; 2] ++ ex_plain ++ [0xCC; 0]) [0xCC; 0]
           (mk_relay [1%nat] []) (broadcast all_ok ex_plain (mk_relay [1%nat] []))).
  - unfold is_byte; repeat constructor; lia.
  - reflexivity.
Defined.

(** The reverse-order removal of failed destinations never calls
    [Vec::remove] out of bounds, so it never panics, and it yields the
    pruned registry of the broadcast. *)
Theorem broadcast_removal_in_bounds
    (w : list event -> nat -> list Z -> bool) (msg : list Z) (st : relay) :
  remove_all_checked (snd (write_pass w msg 0 (dests st) (trace st))) (dests st)
  = Some (dests (broadcast w msg st)).
Proof.
  pose proof (remove_checked_prefix w msg (dests st) [] (trace st)) as H.
  simpl in H. rewrite H. unfold broadcast.
  destruct (write_pass w msg 0 (dests st) (trace st)). reflexivity.
Qed.

(** Chunking invariance: valid frames delivered in any split into nonempty
    reads are all broadcast, in order, exactly as [broadcast_all], and the
    session resumes with an empty buffer. *)
Theorem chunking_invariance
    (w : list event -> nat -> list Z -> bool) (fs chunks : list (list Z))
    (more : list read_result) (st : relay) :
  Forall (fun f => frame_ok f = true) fs -> Forall (fun c => c <> []) chunks ->
  concat chunks = concat fs ->
  handle_source w (map RdOk chunks ++ more) st
  = handle_loop w more [] (broadcast_all w fs st).
Proof.
  intros Hf Hc E. unfold handle_source.
  apply handle_loop_chunks; [exact Hf|exact Hc|left; reflexivity|exact E].
Qed.

Lemma chunking_invariance_witness :
  handle_source all_ok
    (map RdOk [[0xCC; 0x40; 0]; [3; 0xF0; 0x32; 0; 0; 0xAA; 0xBB; 0xCC; 0xCC]; [0; 0; 0; 0; 0; 0; 0]]
     ++ [RdOk []]) (mk_relay [1%nat] [])
  = handle_loop all_ok [RdOk []] [] (broadcast_all all_ok [ex_sensitive; ex_plain] (mk_relay [1%nat] [])).
Proof.
  apply chunking_invariance.
  - repeat constructor.
  - repeat constructor; discriminate.
  - reflexivity.
Defined.

(** Sources that each send nonempty reads and then disconnect cleanly are
    all served, one after the other, and the driver keeps running. *)
Theorem sequential_sources_served
    (w : list event -> nat -> list Z -> bool) (sessions : list (list (list Z)))
    (st : relay) :
  Forall (fun chunks => Forall (fun c => c <> []) chunks) sessions ->
  fst (fst (main_loop w (map (fun cs => AccOk (map RdOk cs ++ [RdOk []])) sessions) st))
    = MainRunning
  /\ snd (main_loop w (map (fun cs => AccOk (map RdOk cs ++ [RdOk []])) sessions) st)
     = length sessions.
Proof.
  intros H. revert st. induction H as [|cs css Hcs _ IH]; intros st; [auto|].
  simpl. unfold handle_source.
  pose proof (handle_loop_disconnect w cs [] st Hcs) as Hd.
  destruct (handle_loop w (map RdOk cs ++ [RdOk []]) [] st) as [o st'].
  simpl in Hd. subst o.
  destruct (IH st') as [H1 H2].
  destruct (main_loop w _ st') as [[o st''] n]. simpl in *. auto.
Qed.

Lemma sequential_sources_served_witness :
  fst (fst (main_loop all_ok (map (fun cs => AccOk (map RdOk cs ++ [RdOk []]))
                               [[ex_plain]; [[1; 2]; ex_sensitive]]) (mk_relay [1%nat] [])))
    = MainRunning
  /\ snd (main_loop all_ok (map (fun cs => AccOk (map RdOk cs ++ [RdOk []]))
                               [[ex_plain]; [[1; 2]; ex_sensitive]]) (mk_relay [1%nat] []))
     = length [[ex_plain]; [[1; 2]; ex_sensitive]].
Proof.
  apply sequential_sources_served. repeat constructor; discriminate.
Defined.
